(** * Legacy send-attribute migration (messages/migrateLegacySendAttributes.ts)

    A shallow embedding of [migrateLegacySendAttributes] and of the two
    extraction helpers it is built from, together with the send-state
    reducer it folds its events through.

    Conventions of the embedding:
    - a JavaScript object used as a string-keyed dictionary is a
      [gmap string _]; own-property lookup is [!!], assignment is insert;
    - a value of TypeScript type [unknown] is a [JsValue];
    - a computation that may raise is a [Completion]. *)

From Stdlib Require Import ZArith.
From stdpp Require Import base option gmap strings list fin_maps.

#[local] Set Warnings "-register-all".
#[local] Open Scope string_scope.
#[local] Open Scope list_scope.
#[local] Open Scope Z_scope.

(** ** Run-time values *)

(** The values a stored message attribute can hold.  Numbers are kept as
    integers: the code only ever asks whether one is truthy. *)
Inductive JsValue : Type :=
  | JsUndefined
  | JsNull
  | JsBool (b : bool)
  | JsNumber (n : Z)
  | JsString (s : string)
  | JsArray (items : list JsValue)
  | JsObject (fields : gmap string JsValue).

(** [Boolean(v)] *)
Definition Boolean (v : JsValue) : bool :=
  match v with
  | JsUndefined | JsNull => false
  | JsBool b => b
  | JsNumber n => negb (Z.eqb n 0)
  | JsString s => negb (String.eqb s "")
  | JsArray _ | JsObject _ => true
  end.

(** ** Completions: normal return or a raised [TypeError] *)

Inductive Completion (A : Type) : Type :=
  | Normal (a : A)
  | Throw.
Arguments Normal {A} a.
Arguments Throw {A}.

Definition cbind {A B} (c : Completion A) (k : A -> Completion B) : Completion B :=
  match c with
  | Normal a => k a
  | Throw => Throw
  end.

Notation "'try' x <- c ; k" := (cbind c (fun x => k))
  (at level 10, x name, c at level 100, k at level 200).

(** [v.name] for a property [name] that no built-in prototype defines
    (such as [identifier] and [number]): reading it off [undefined] or
    [null] raises, off an object it is the own field, off anything else
    it is [undefined]. *)
Definition getProperty (v : JsValue) (name : string) : Completion JsValue :=
  match v with
  | JsUndefined | JsNull => Throw
  | JsObject fields => Normal (default JsUndefined (fields !! name))
  | _ => Normal JsUndefined
  end.

(** ** The send-state model (messages/MessageSendState.ts) *)

(** Modelled from the spec: the module MessageSendState is not under
    src/.  This is the closed status enumeration of the data model. *)
Inductive SendStatus : Type := Pending | Failed | Sent | Delivered | Read.

#[global] Instance SendStatus_eq_dec : EqDecision SendStatus.
Proof. solve_decision. Defined.

(** Modelled from the spec: the rank table of MessageSendState,
    [Pending (0) < Failed (1) < Sent (2) < Delivered (3) < Read (4)]. *)
Definition rank (s : SendStatus) : Z :=
  match s with
  | Pending => 0
  | Failed => 1
  | Sent => 2
  | Delivered => 3
  | Read => 4
  end.

(** [updatedAt] is optional: [None] is JavaScript's [undefined]. *)
Record SendState : Type := {
  status : SendStatus;
  updatedAt : option Z;
}.

(** The four event shapes the migration emits.  [SendActionType.Failed]
    and [SendActionType.Sent] are written [ActionFailed] and
    [ActionSent], apart from the statuses of the same names. *)
Inductive SendActionType : Type :=
  | ActionFailed
  | ActionSent
  | GotDeliveryReceipt
  | GotReadReceipt.

#[global] Instance SendActionType_eq_dec : EqDecision SendActionType.
Proof. solve_decision. Defined.

Record SendAction : Type := {
  type : SendActionType;
  actionUpdatedAt : option Z;
}.

(** Modelled from the spec: each event shape implies the status of the
    same name (DeliveredReceipt to Delivered, ReadReceipt to Read). *)
Definition impliedStatus (t : SendActionType) : SendStatus :=
  match t with
  | ActionFailed => Failed
  | ActionSent => Sent
  | GotDeliveryReceipt => Delivered
  | GotReadReceipt => Read
  end.

(** Modelled from the spec: [sendStateReducer] of MessageSendState, which
    is not under src/.  A strictly higher rank replaces the status, and
    the timestamp when the event carries one; anything else returns the
    current state as it is. *)
Definition sendStateReducer (state : SendState) (action : SendAction) : SendState :=
  let newRank := rank (impliedStatus (type action)) in
  let oldRank := rank (status state) in
  if oldRank <? newRank
  then {| status := impliedStatus (type action);
          updatedAt := match actionUpdatedAt action with
                       | Some t => Some t
                       | None => updatedAt state
                       end |}
  else state.

Abbreviation SendStateByConversationId := (gmap string SendState).

(** ** The message record *)

(** The part of [MessageAttributesType] the migration reads.  The typed
    fields [type] (here [messageType]), [sendStateByConversationId] and
    [sent_at] are kept typed.  [legacy] holds the attributes read by
    name as [unknown] ([recipients], [sent_to], [delivered_to],
    [read_by], [sent]), and [errors] is kept as the run-time value it is,
    so that a record whose [errors] does not have its declared shape can
    be written down. *)
Record MessageAttributesType : Type := {
  messageType : string;
  sendStateByConversationId : option SendStateByConversationId;
  sent_at : Z;
  errors : JsValue;
  legacy : gmap string JsValue;
}.

(** [message[attributeName]] and lodash's [get(message, name)] on a
    legacy attribute: [undefined] when the attribute is missing. *)
Definition get (message : MessageAttributesType) (attributeName : string) : JsValue :=
  default JsUndefined (legacy message !! attributeName).

(** lodash's [isEmpty] on an optional dictionary. *)
Definition isEmpty (o : option SendStateByConversationId) : bool :=
  match o with
  | None => true
  | Some m => bool_decide (m = ∅)
  end.

(** Modelled from the spec: [isOutgoing] (state/selectors/message) is not
    under src/; it is the discriminator for whether the message is
    outgoing. *)
Definition isOutgoing (message : MessageAttributesType) : bool :=
  String.eqb (messageType message) "outgoing".

(** ** Conversation lookup *)

Record Conversation : Type := { id : string }.

(** The lookup callback: [Some] conversation, or [None] for [undefined].
    It is applied to whatever value the caller holds. *)
Abbreviation GetConversationType := (JsValue -> option Conversation).

(** ** Iterables (util/iterables) *)

(** Modelled from the spec: util/iterables is not under src/.  An
    iterable is an array or the endless [repeat] of one value. *)
Inductive Iterable (A : Type) : Type :=
  | OfArray (items : list A)
  | Repeat (a : A).
Arguments OfArray {A} items.
Arguments Repeat {A} a.

Definition next {A} (it : Iterable A) : option (A * Iterable A) :=
  match it with
  | OfArray [] => None
  | OfArray (a :: rest) => Some (a, OfArray rest)
  | Repeat a => Some (a, Repeat a)
  end.

(** Modelled from the spec: [zipObject keys values] pairs the keys with
    the values in order, assigning each pair into a fresh object, and
    stops when either side runs out. *)
Fixpoint zipObjectInto {V} (result : gmap string V) (keys : list string)
    (values : Iterable V) : gmap string V :=
  match keys with
  | [] => result
  | key :: keys' =>
      match next values with
      | None => result
      | Some (value, values') => zipObjectInto (<[key := value]> result) keys' values'
      end
  end.

Definition zipObject {V} (keys : list string) (values : Iterable V) : gmap string V :=
  zipObjectInto ∅ keys values.

(** ** Extraction helpers *)

(** [Array.prototype.forEach] with a callback that pushes onto [result]
    or raises: the first raise abandons the loop. *)
Fixpoint forEach {A R} (items : list A) (callback : R -> A -> Completion R)
    (result : R) : Completion R :=
  match items with
  | [] => Normal result
  | item :: items' =>
      try result' <- callback result item;
      forEach items' callback result'
  end.

(** [getConversation(error.identifier) || getConversation(error.number)] *)
Definition conversationOfError (getConversation : GetConversationType)
    (error : JsValue) : Completion (option Conversation) :=
  try identifier <- getProperty error "identifier";
  match getConversation identifier with
  | Some conversation => Normal (Some conversation)
  | None =>
      try number <- getProperty error "number";
      Normal (getConversation number)
  end.

Definition getConversationIdsFromErrors (errors : JsValue)
    (getConversation : GetConversationType) : Completion (list string) :=
  (* [(errors || [])]: any falsy value stands for the empty array *)
  let errorsOrEmpty := if Boolean errors then errors else JsArray [] in
  match errorsOrEmpty with
  | JsArray items =>
      forEach items
        (fun result error =>
           try conversation <- conversationOfError getConversation error;
           match conversation with
           | Some conversation => Normal (result ++ [id conversation])
           | None => Normal result
           end)
        []
  | _ => Throw (* [.forEach] is not a function *)
  end.

Definition getConversationIdsFromLegacyAttribute (message : MessageAttributesType)
    (attributeName : string) (getConversation : GetConversationType) : list string :=
  let rawValue := get message attributeName in
  let value := match rawValue with JsArray items => items | _ => [] end in
  foldl
    (fun result identifier =>
       match identifier with
       | JsString _ =>
           match getConversation identifier with
           | Some conversation => result ++ [id conversation]
           | None => result
           end
       | _ => result
       end)
    [] value.

(** ** The migration *)

(** An element of [actions]: [{ type, conversationId }]. *)
Record LegacyAction : Type := {
  actionType : SendActionType;
  conversationId : string;
}.

Definition pendingSendState (message : MessageAttributesType) : SendState :=
  {| status := Pending; updatedAt := Some (sent_at message) |}.

Definition wasSentToSelf (message : MessageAttributesType) : bool :=
  Boolean (get message "sent").

(** The events taken from the four legacy sources, in the order in which
    [concat] chains them.  The [errors] argument is evaluated first and
    may raise. *)
Definition derivedActions (message : MessageAttributesType)
    (getConversation : GetConversationType) : Completion (list LegacyAction) :=
  try failed <- getConversationIdsFromErrors (errors message) getConversation;
  Normal
    (map (fun conversationId =>
            {| actionType := ActionFailed; conversationId := conversationId |})
         failed
     ++ map (fun conversationId =>
            {| actionType := ActionSent; conversationId := conversationId |})
         (getConversationIdsFromLegacyAttribute message "sent_to" getConversation)
     ++ map (fun conversationId =>
            {| actionType := GotDeliveryReceipt; conversationId := conversationId |})
         (getConversationIdsFromLegacyAttribute message "delivered_to" getConversation)
     ++ map (fun conversationId =>
            {| actionType := GotReadReceipt; conversationId := conversationId |})
         (getConversationIdsFromLegacyAttribute message "read_by" getConversation)).

(** The last argument of [concat]: the event for our own conversation. *)
Definition selfAction (message : MessageAttributesType)
    (ourConversationId : string) : LegacyAction :=
  {| actionType := if wasSentToSelf message then ActionSent else ActionFailed;
     conversationId := ourConversationId |}.

(** [const actions = concat(...)] *)
Definition actions (message : MessageAttributesType)
    (getConversation : GetConversationType) (ourConversationId : string)
    : Completion (list LegacyAction) :=
  try derived <- derivedActions message getConversation;
  Normal (derived ++ [selfAction message ourConversationId]).

(** The action handed to the reducer in the loop body. *)
Definition reducerAction (action : LegacyAction) : SendAction :=
  {| type := actionType action; actionUpdatedAt := None |}.

(** One turn of the [for ... of actions] loop.  [getOwn] reads an own
    property, [undefined] when there is none, so [getOwn(...) || pending]
    is the lookup with a default. *)
Definition applyAction (pendingSendState : SendState)
    (sendStateByConversationId : SendStateByConversationId)
    (action : LegacyAction) : SendStateByConversationId :=
  let oldSendState :=
    default pendingSendState (sendStateByConversationId !! conversationId action) in
  <[conversationId action := sendStateReducer oldSendState (reducerAction action)]>
    sendStateByConversationId.

(** [None] is the [undefined] returned when there is nothing to migrate. *)
Definition migrateLegacySendAttributes (message : MessageAttributesType)
    (getConversation : GetConversationType) (ourConversationId : string)
    : Completion (option SendStateByConversationId) :=
  let shouldMigrate :=
    isEmpty (sendStateByConversationId message) && isOutgoing message in
  if negb shouldMigrate then Normal None
  else
    let seeded : SendStateByConversationId :=
      zipObject
        (getConversationIdsFromLegacyAttribute message "recipients" getConversation)
        (Repeat (pendingSendState message)) in
    try actions <- actions message getConversation ourConversationId;
    Normal (Some (foldl (applyAction (pendingSendState message)) seeded actions)).

(** ** Vocabulary of the statements *)

Definition isNullish (v : JsValue) : bool :=
  match v with
  | JsUndefined | JsNull => true
  | _ => false
  end.

(** The shapes of [errors] on which [getConversationIdsFromErrors] does
    not raise: a falsy value, or an array none of whose entries is
    [undefined] or [null]. *)
Definition errorsShapeOk (errors : JsValue) : bool :=
  match errors with
  | JsArray items => forallb (fun error => negb (isNullish error)) items
  | _ => negb (Boolean errors)
  end.

(** The entries of a legacy attribute: those of the array it holds, and
    none when it holds anything else. *)
Definition entriesOf (v : JsValue) : list JsValue :=
  match v with
  | JsArray items => items
  | _ => []
  end.

(** The conversation id an entry of a legacy list resolves to. *)
Definition idOfIdentifier (getConversation : GetConversationType)
    (identifier : JsValue) : option string :=
  match identifier with
  | JsString _ => id <$> getConversation identifier
  | _ => None
  end.

(** The field of an error entry; [undefined] when it has none. *)
Definition fieldOf (error : JsValue) (name : string) : JsValue :=
  match error with
  | JsObject fields => default JsUndefined (fields !! name)
  | _ => JsUndefined
  end.

(** The conversation id an error entry resolves to. *)
Definition idOfError (getConversation : GetConversationType)
    (error : JsValue) : option string :=
  match getConversation (fieldOf error "identifier") with
  | Some conversation => Some (id conversation)
  | None => id <$> getConversation (fieldOf error "number")
  end.

(** The ids resolvable from a legacy list and from [errors]. *)
Definition resolvableFrom (message : MessageAttributesType)
    (getConversation : GetConversationType) (attributeName : string) : gset string :=
  list_to_set (omap (idOfIdentifier getConversation) (entriesOf (get message attributeName))).

Definition resolvableFromErrors (message : MessageAttributesType)
    (getConversation : GetConversationType) : gset string :=
  list_to_set (omap (idOfError getConversation) (entriesOf (errors message))).

(** The message with one legacy attribute replaced. *)
Definition withLegacy (message : MessageAttributesType) (attributeName : string)
    (v : JsValue) : MessageAttributesType :=
  {| messageType := messageType message;
     sendStateByConversationId := sendStateByConversationId message;
     sent_at := sent_at message;
     errors := errors message;
     legacy := <[attributeName := v]> (legacy message) |}.

(** The higher of two statuses, and the highest status among [s0] and
    the events of a list that are addressed to [c]. *)
Definition maxStatus (a b : SendStatus) : SendStatus :=
  if rank a <? rank b then b else a.

Definition bestStatus (c : string) (s0 : SendStatus) (acts : list LegacyAction)
    : SendStatus :=
  foldl (fun s a => if decide (conversationId a = c)
                    then maxStatus s (impliedStatus (actionType a)) else s)
        s0 acts.

(** ** Scenarios of the specification, run on the embedding *)

Module Scenarios.

(** A directory that knows the identifiers [+A] and [+B], and the
    number [+4A] as a second name of the conversation [A]. *)
Definition directory : GetConversationType := fun v =>
  match v with
  | JsString "+A" => Some {| id := "A" |}
  | JsString "+4A" => Some {| id := "A" |}
  | JsString "+B" => Some {| id := "B" |}
  | _ => None
  end.

Definition outgoing (errs : JsValue) (attrs : list (string * JsValue)) : MessageAttributesType :=
  {| messageType := "outgoing"; sendStateByConversationId := None;
     sent_at := 1000; errors := errs; legacy := list_to_map attrs |}.

Definition strings (l : list string) : JsValue := JsArray (JsString <$> l).

Definition st (s : SendStatus) : SendState :=
  {| status := s; updatedAt := Some 1000 |}.

Definition scenarioA : MessageAttributesType :=
  outgoing JsUndefined
    [("recipients", strings ["+A"; "+B"]); ("sent_to", strings ["+A"]);
     ("read_by", strings ["+B"]); ("sent", JsBool true)].

Definition scenarioB : MessageAttributesType :=
  outgoing (JsArray [JsObject {[ "identifier" := JsString "+A" ]}])
    [("recipients", strings ["+A"]); ("sent_to", strings ["+A"]);
     ("sent", JsBool false)].

Definition scenarioC : MessageAttributesType := outgoing JsUndefined [].

(** Scenario D: normalized state is already there. *)
Definition scenarioD : MessageAttributesType :=
  {| messageType := "outgoing";
     sendStateByConversationId := Some {[ "A" := st Delivered ]};
     sent_at := 1000; errors := JsUndefined;
     legacy := list_to_map [("recipients", strings ["+A"; "+B"])] |}.

Definition incoming : MessageAttributesType :=
  {| messageType := "incoming"; sendStateByConversationId := None;
     sent_at := 1000; errors := JsUndefined;
     legacy := list_to_map [("recipients", strings ["+A"; "+B"])] |}.

(** [+B] is named by [delivered_to] alone. *)
Definition deliveredOnly : MessageAttributesType :=
  outgoing JsUndefined
    [("recipients", strings ["+A"]); ("delivered_to", strings ["+B"])].

(** [errors] holds a string where an array is expected. *)
Definition errorsNotAnArray : MessageAttributesType :=
  outgoing (JsString "oops") [("recipients", strings ["+A"])].

(** Two names of one conversation: [+A] was sent to, [+4A] has read. *)
Definition twoNames : MessageAttributesType :=
  outgoing JsUndefined
    [("recipients", strings ["+A"]); ("sent_to", strings ["+A"]);
     ("read_by", strings ["+4A"])].

End Scenarios.


(** ** Vocabulary of the further properties *)

(** The string entries of an array, in order. *)
Definition stringsOf (items : list JsValue) : list string :=
  omap (fun v => match v with JsString s => Some s | _ => None end) items.

(** The message with the returned map stored on it, as the caller does
    after a migration. *)
Definition withSendState (message : MessageAttributesType)
    (result : SendStateByConversationId) : MessageAttributesType :=
  {| messageType := messageType message;
     sendStateByConversationId := Some result;
     sent_at := sent_at message;
     errors := errors message;
     legacy := legacy message |}.

Module Cases.

(** A directory that, unlike [Scenarios.directory], also answers to a
    number and to [undefined]. *)
Definition eagerDirectory : GetConversationType := fun v =>
  match v with
  | JsNumber _ => Some {| id := "N" |}
  | JsUndefined => Some {| id := "U" |}
  | _ => Scenarios.directory v
  end.

(** [sent_to] holds a number and a boolean beside one identifier; the
    one error carries both of its fields. *)
Definition mixedEntries : MessageAttributesType :=
  Scenarios.outgoing
    (JsArray [JsObject {[ "identifier" := JsString "+B"; "number" := JsString "+4A" ]}])
    [("recipients", Scenarios.strings ["+A"; "+B"]);
     ("sent_to", JsArray [JsNumber 7; JsString "+A"; JsBool true])].

(** [+A] is a recipient no other source names. *)
Definition quietRecipient : MessageAttributesType :=
  Scenarios.outgoing JsUndefined
    [("recipients", Scenarios.strings ["+A"; "+B"]);
     ("read_by", Scenarios.strings ["+B"])].

End Cases.

(** Membership in a list written out. *)
Ltac in_list :=
  repeat first [apply list_elem_of_here | apply list_elem_of_further].

(** Closed facts about sets and strings, by evaluation. *)
Ltac by_evaluation := apply (bool_decide_unpack _); vm_compute; exact I.

(** ** The extraction helpers as list comprehensions *)

Lemma omap_cons_case {A B} (f : A -> option B) (x : A) (l : list A) :
  omap f (x :: l) = match f x with Some y => y :: omap f l | None => omap f l end.
Proof. reflexivity. Qed.

Lemma foldl_identifiers_omap (getConversation : GetConversationType) value acc :
  foldl
    (fun result identifier =>
       match identifier with
       | JsString _ =>
           match getConversation identifier with
           | Some conversation => result ++ [id conversation]
           | None => result
           end
       | _ => result
       end)
    acc value
  = acc ++ omap (idOfIdentifier getConversation) value.
Proof.
  revert acc. induction value as [|identifier value IH]; intros acc.
  - by rewrite app_nil_r.
  - cbn [foldl]. rewrite IH, omap_cons_case. unfold idOfIdentifier at 2.
    destruct identifier; try done.
    destruct (getConversation _); simpl; [|done].
    by rewrite <- app_assoc.
Qed.

Lemma getConversationIdsFromLegacyAttribute_omap message attributeName getConversation :
  getConversationIdsFromLegacyAttribute message attributeName getConversation
  = omap (idOfIdentifier getConversation) (entriesOf (get message attributeName)).
Proof.
  unfold getConversationIdsFromLegacyAttribute. by rewrite foldl_identifiers_omap.
Qed.

Lemma conversationOfError_normal getConversation error :
  isNullish error = false ->
  conversationOfError getConversation error
  = Normal (match getConversation (fieldOf error "identifier") with
            | Some conversation => Some conversation
            | None => getConversation (fieldOf error "number")
            end).
Proof.
  intros Hnn. unfold conversationOfError.
  destruct error; simpl in *; try done;
    by destruct (getConversation _).
Qed.

Lemma conversationOfError_nullish getConversation error :
  isNullish error = true -> conversationOfError getConversation error = Throw.
Proof. by destruct error. Qed.

Lemma forEach_errors_normal getConversation items acc :
  forallb (fun error => negb (isNullish error)) items = true ->
  forEach items
    (fun result error =>
       try conversation <- conversationOfError getConversation error;
       match conversation with
       | Some conversation => Normal (result ++ [id conversation])
       | None => Normal result
       end) acc
  = Normal (acc ++ omap (idOfError getConversation) items).
Proof.
  revert acc. induction items as [|error items IH]; intros acc Hok.
  - by rewrite app_nil_r.
  - simpl in Hok. apply andb_true_iff in Hok as [Herr Hok].
    apply negb_true_iff in Herr.
    cbn [forEach]. rewrite (conversationOfError_normal _ _ Herr), omap_cons_case.
    unfold idOfError at 1.
    destruct (getConversation (fieldOf error "identifier")) as [conversation|];
      cbn [cbind fmap option_fmap option_map].
    + rewrite (IH _ Hok). by rewrite <- app_assoc.
    + destruct (getConversation (fieldOf error "number")) as [conversation|];
        cbn [cbind fmap option_fmap option_map].
      * rewrite (IH _ Hok). by rewrite <- app_assoc.
      * by rewrite (IH _ Hok).
Qed.

Lemma forEach_errors_throw getConversation items acc :
  forallb (fun error => negb (isNullish error)) items = false ->
  forEach items
    (fun result error =>
       try conversation <- conversationOfError getConversation error;
       match conversation with
       | Some conversation => Normal (result ++ [id conversation])
       | None => Normal result
       end) acc
  = Throw.
Proof.
  revert acc. induction items as [|error items IH]; intros acc Hbad; simpl.
  - done.
  - simpl in Hbad. apply andb_false_iff in Hbad as [Herr|Hbad].
    + apply negb_false_iff in Herr.
      by rewrite (conversationOfError_nullish _ _ Herr).
    + destruct (conversationOfError getConversation error) as [[conversation|]|]; simpl;
        auto.
Qed.

Lemma getConversationIdsFromErrors_normal errors getConversation :
  errorsShapeOk errors = true ->
  getConversationIdsFromErrors errors getConversation
  = Normal (omap (idOfError getConversation) (entriesOf errors)).
Proof.
  intros Hok. unfold getConversationIdsFromErrors.
  destruct errors as [| |b|n|s|items|fields]; simpl in *; try done.
  - by destruct b.
  - by destruct (Z.eqb n 0).
  - by destruct (String.eqb s "").
  - by rewrite forEach_errors_normal.
Qed.

Lemma getConversationIdsFromErrors_throw errors getConversation :
  errorsShapeOk errors = false ->
  getConversationIdsFromErrors errors getConversation = Throw.
Proof.
  intros Hbad. unfold getConversationIdsFromErrors.
  destruct errors as [| |b|n|s|items|fields]; simpl in *; try done.
  - by destruct b.
  - by destruct (Z.eqb n 0).
  - by destruct (String.eqb s "").
  - by rewrite forEach_errors_throw.
Qed.

(** ** The reducer on events without a timestamp *)

Lemma rank_inj (a b : SendStatus) : rank a = rank b -> a = b.
Proof. by destruct a, b. Qed.

Lemma rank_maxStatus (a b : SendStatus) :
  rank (maxStatus a b) = Z.max (rank a) (rank b).
Proof. unfold maxStatus. destruct (Z.ltb_spec (rank a) (rank b)); lia. Qed.

Lemma sendStateReducer_reducerAction (state : SendState) (action : LegacyAction) :
  sendStateReducer state (reducerAction action)
  = {| status := maxStatus (status state) (impliedStatus (actionType action));
       updatedAt := updatedAt state |}.
Proof.
  unfold sendStateReducer, maxStatus, reducerAction. cbn [type actionUpdatedAt].
  destruct (rank (status state) <? rank (impliedStatus (actionType action)));
    [done | by destruct state].
Qed.

(** ** The highest status among the events of one conversation *)

Lemma bestStatus_cons c s0 a acts :
  bestStatus c s0 (a :: acts)
  = bestStatus c (if decide (conversationId a = c)
                  then maxStatus s0 (impliedStatus (actionType a)) else s0) acts.
Proof. reflexivity. Qed.

Lemma bestStatus_ge_init c s0 acts : rank s0 <= rank (bestStatus c s0 acts).
Proof.
  revert s0. induction acts as [|a acts IH]; intros s0; [simpl; lia|].
  rewrite bestStatus_cons. etrans; [|apply IH].
  case_decide; [rewrite rank_maxStatus|]; lia.
Qed.

Lemma bestStatus_ge c s0 acts a :
  a ∈ acts -> conversationId a = c ->
  rank (impliedStatus (actionType a)) <= rank (bestStatus c s0 acts).
Proof.
  intros Hin Hc. revert s0.
  induction acts as [|b acts IH]; intros s0; [by apply elem_of_nil in Hin|].
  rewrite bestStatus_cons. apply elem_of_cons in Hin as [<-|Hin].
  - rewrite decide_True by done. etrans; [|apply bestStatus_ge_init].
    rewrite rank_maxStatus. lia.
  - by apply IH.
Qed.

Lemma bestStatus_attained c s0 acts :
  bestStatus c s0 acts = s0
  \/ exists a, a ∈ acts /\ conversationId a = c
             /\ impliedStatus (actionType a) = bestStatus c s0 acts.
Proof.
  revert s0. induction acts as [|a acts IH]; intros s0; [by left|].
  rewrite bestStatus_cons.
  destruct (IH (if decide (conversationId a = c)
                then maxStatus s0 (impliedStatus (actionType a)) else s0))
    as [Heq|(b & Hb & Hc & Heq)].
  - rewrite Heq. case_decide as Hc; [|by left].
    unfold maxStatus. destruct (rank s0 <? _); [|by left].
    right. exists a. split_and!; [left | done | done].
  - right. exists b. split_and!; [by right | done | done].
Qed.

(** The highest status depends on the events only as a set. *)
Lemma bestStatus_ext c s0 acts1 acts2 :
  (forall a, a ∈ acts1 <-> a ∈ acts2) ->
  bestStatus c s0 acts1 = bestStatus c s0 acts2.
Proof.
  assert (Hle : forall l1 l2, (forall a, a ∈ l1 -> a ∈ l2) ->
            rank (bestStatus c s0 l1) <= rank (bestStatus c s0 l2)).
  { intros l1 l2 Hsub.
    destruct (bestStatus_attained c s0 l1) as [->|(a & Ha & Hc & <-)].
    - apply bestStatus_ge_init.
    - apply bestStatus_ge; auto. }
  intros Hiff. apply rank_inj, Z.le_antisymm; apply Hle; intros a; apply Hiff.
Qed.

(** ** The seeded object and the loop *)

Lemma zipObjectInto_Repeat_lookup {V} (result : gmap string V) keys (v : V) c :
  zipObjectInto result keys (Repeat v) !! c
  = if decide (c ∈ keys) then Some v else result !! c.
Proof.
  revert result. induction keys as [|key keys IH]; intros result;
    cbn [zipObjectInto next].
  - rewrite decide_False; [done | apply not_elem_of_nil].
  - rewrite IH. destruct (decide (c ∈ keys)) as [Hin|Hnin].
    + rewrite decide_True; [done | by right].
    + destruct (decide (c = key)) as [->|Hne].
      * rewrite lookup_insert_eq, decide_True; [done | left].
      * rewrite lookup_insert_ne by done.
        rewrite decide_False; [done|]. by intros [?|?]%elem_of_cons.
Qed.

Lemma zipObject_Repeat_lookup {V} keys (v : V) c :
  zipObject keys (Repeat v) !! c = if decide (c ∈ keys) then Some v else None.
Proof. unfold zipObject. by rewrite zipObjectInto_Repeat_lookup, lookup_empty. Qed.

Lemma applyAction_lookup pending (st : SendStateByConversationId) a c :
  applyAction pending st a !! c
  = if decide (conversationId a = c)
    then Some (sendStateReducer (default pending (st !! c)) (reducerAction a))
    else st !! c.
Proof.
  unfold applyAction. case_decide as Hc.
  - subst c. by rewrite lookup_insert_eq.
  - by rewrite lookup_insert_ne.
Qed.

(** What the loop leaves under a key: the stored state, or else the
    pending state once some event names the key, raised to the highest
    status among its events, the timestamp kept. *)
Lemma foldl_applyAction_lookup pending (st : SendStateByConversationId) acts c :
  foldl (applyAction pending) st acts !! c
  = match st !! c with
    | Some s => Some {| status := bestStatus c (status s) acts; updatedAt := updatedAt s |}
    | None =>
        if decide (c ∈ conversationId <$> acts)
        then Some {| status := bestStatus c (status pending) acts;
                     updatedAt := updatedAt pending |}
        else None
    end.
Proof.
  revert st. induction acts as [|a acts IH]; intros st.
  - cbn [foldl bestStatus]. destruct (st !! c) as [[]|]; [done|].
    rewrite decide_False; [done | apply not_elem_of_nil].
  - cbn [foldl]. rewrite IH, applyAction_lookup, fmap_cons.
    destruct (decide (conversationId a = c)) as [Hc|Hc].
    + rewrite sendStateReducer_reducerAction.
      destruct (st !! c) as [s|]; cbn [default from_option Datatypes.id status updatedAt].
      * by rewrite bestStatus_cons, (decide_True _ _ Hc).
      * rewrite decide_True by (rewrite Hc; left).
        by rewrite bestStatus_cons, (decide_True _ _ Hc).
    + destruct (st !! c) as [s|].
      * by rewrite bestStatus_cons, (decide_False _ _ Hc).
      * destruct (decide (c ∈ conversationId <$> acts)) as [Hin|Hnin].
        -- rewrite decide_True by (by right).
           by rewrite bestStatus_cons, (decide_False _ _ Hc).
        -- rewrite decide_False; [done|]. intros [?|?]%elem_of_cons; congruence.
Qed.

(** ** The event list *)

Lemma elem_of_resolvableFrom message getConversation attributeName c :
  c ∈ resolvableFrom message getConversation attributeName
  <-> c ∈ getConversationIdsFromLegacyAttribute message attributeName getConversation.
Proof.
  unfold resolvableFrom.
  by rewrite elem_of_list_to_set, getConversationIdsFromLegacyAttribute_omap.
Qed.

Lemma derivedActions_normal message getConversation :
  errorsShapeOk (errors message) = true ->
  derivedActions message getConversation
  = Normal
      (map (fun c => {| actionType := ActionFailed; conversationId := c |})
           (omap (idOfError getConversation) (entriesOf (errors message)))
       ++ map (fun c => {| actionType := ActionSent; conversationId := c |})
           (getConversationIdsFromLegacyAttribute message "sent_to" getConversation)
       ++ map (fun c => {| actionType := GotDeliveryReceipt; conversationId := c |})
           (getConversationIdsFromLegacyAttribute message "delivered_to" getConversation)
       ++ map (fun c => {| actionType := GotReadReceipt; conversationId := c |})
           (getConversationIdsFromLegacyAttribute message "read_by" getConversation)).
Proof.
  intros Hok. unfold derivedActions.
  by rewrite (getConversationIdsFromErrors_normal _ _ Hok).
Qed.

Lemma derivedActions_throw message getConversation :
  errorsShapeOk (errors message) = false ->
  derivedActions message getConversation = Throw.
Proof.
  intros Hbad. unfold derivedActions.
  by rewrite (getConversationIdsFromErrors_throw _ _ Hbad).
Qed.

Lemma elem_of_tagged (t : SendActionType) (ids : list string) (a : LegacyAction) :
  a ∈ map (fun c => {| actionType := t; conversationId := c |}) ids
  <-> actionType a = t /\ conversationId a ∈ ids.
Proof.
  change (map ?f ids) with (f <$> ids). rewrite list_elem_of_fmap. split.
  - by intros (c & -> & Hc).
  - intros [<- Hc]. exists (conversationId a). by destruct a.
Qed.

(** Which events the four legacy sources give rise to. *)
Lemma elem_of_derivedActions message getConversation derived a :
  derivedActions message getConversation = Normal derived ->
  a ∈ derived
  <-> (actionType a = ActionFailed
       /\ conversationId a ∈ resolvableFromErrors message getConversation)
      \/ (actionType a = ActionSent
          /\ conversationId a ∈ resolvableFrom message getConversation "sent_to")
      \/ (actionType a = GotDeliveryReceipt
          /\ conversationId a ∈ resolvableFrom message getConversation "delivered_to")
      \/ (actionType a = GotReadReceipt
          /\ conversationId a ∈ resolvableFrom message getConversation "read_by").
Proof.
  intros Hd.
  destruct (errorsShapeOk (errors message)) eqn:Hok.
  - rewrite (derivedActions_normal _ _ Hok) in Hd. injection Hd as <-.
    rewrite !elem_of_app, !elem_of_tagged, !elem_of_resolvableFrom.
    unfold resolvableFromErrors. by rewrite elem_of_list_to_set.
  - by rewrite (derivedActions_throw _ _ Hok) in Hd.
Qed.

Lemma actions_derived message getConversation ourConversationId acts :
  actions message getConversation ourConversationId = Normal acts ->
  exists derived,
    derivedActions message getConversation = Normal derived
    /\ acts = derived ++ [selfAction message ourConversationId].
Proof.
  unfold actions. destruct (derivedActions message getConversation) as [derived|];
    [|done].
  intros [= <-]. by exists derived.
Qed.

Lemma actions_normal message getConversation ourConversationId :
  errorsShapeOk (errors message) = true ->
  exists derived,
    derivedActions message getConversation = Normal derived
    /\ actions message getConversation ourConversationId
       = Normal (derived ++ [selfAction message ourConversationId]).
Proof.
  intros Hok. unfold actions. rewrite (derivedActions_normal _ _ Hok).
  eexists. split; reflexivity.
Qed.

(** ** The migration, entry by entry *)

Lemma migrate_not_needed message getConversation ourConversationId :
  isEmpty (sendStateByConversationId message) && isOutgoing message = false ->
  migrateLegacySendAttributes message getConversation ourConversationId = Normal None.
Proof. intros Hno. unfold migrateLegacySendAttributes. by rewrite Hno. Qed.

Lemma migrate_throws message getConversation ourConversationId :
  isEmpty (sendStateByConversationId message) = true ->
  isOutgoing message = true ->
  errorsShapeOk (errors message) = false ->
  migrateLegacySendAttributes message getConversation ourConversationId = Throw.
Proof.
  intros Hempty Hout Hbad. unfold migrateLegacySendAttributes, actions.
  by rewrite Hempty, Hout, (derivedActions_throw _ _ Hbad).
Qed.

(** A message that is migrated and whose [errors] are well shaped gets a
    map; under each key named by [recipients] or by an event sits the
    highest status among the events of that key, stamped [sent_at]. *)
Lemma migrate_lookup message getConversation ourConversationId :
  isEmpty (sendStateByConversationId message) = true ->
  isOutgoing message = true ->
  errorsShapeOk (errors message) = true ->
  exists acts result,
    actions message getConversation ourConversationId = Normal acts
    /\ migrateLegacySendAttributes message getConversation ourConversationId
       = Normal (Some result)
    /\ forall c,
         result !! c
         = if decide (c ∈ resolvableFrom message getConversation "recipients"
                      \/ c ∈ conversationId <$> acts)
           then Some {| status := bestStatus c Pending acts;
                        updatedAt := Some (sent_at message) |}
           else None.
Proof.
  intros Hempty Hout Hok.
  destruct (actions_normal message getConversation ourConversationId Hok)
    as (derived & _ & Hacts).
  eexists _, _. split; [exact Hacts|]. split.
  - unfold migrateLegacySendAttributes. rewrite Hempty, Hout, Hacts. reflexivity.
  - intros c. rewrite foldl_applyAction_lookup, zipObject_Repeat_lookup.
    cbn [pendingSendState status updatedAt].
    destruct (decide (c ∈ getConversationIdsFromLegacyAttribute message "recipients"
                            getConversation)) as [Hrec|Hrec].
    + rewrite decide_True; [done|]. left. by apply elem_of_resolvableFrom.
    + destruct (decide (c ∈ conversationId <$> _)) as [Hin|Hnin].
      * rewrite decide_True; [done | by right].
      * rewrite decide_False; [done|].
        intros [?%elem_of_resolvableFrom|?]; done.
Qed.

(** The events of a message, as a set. *)
Lemma elem_of_actions message getConversation ourConversationId acts a :
  actions message getConversation ourConversationId = Normal acts ->
  a ∈ acts
  <-> (actionType a = ActionFailed
       /\ conversationId a ∈ resolvableFromErrors message getConversation)
      \/ (actionType a = ActionSent
          /\ conversationId a ∈ resolvableFrom message getConversation "sent_to")
      \/ (actionType a = GotDeliveryReceipt
          /\ conversationId a ∈ resolvableFrom message getConversation "delivered_to")
      \/ (actionType a = GotReadReceipt
          /\ conversationId a ∈ resolvableFrom message getConversation "read_by")
      \/ a = selfAction message ourConversationId.
Proof.
  intros (derived & Hd & ->)%actions_derived.
  rewrite elem_of_app, (elem_of_derivedActions _ _ _ _ Hd), list_elem_of_singleton.
  tauto.
Qed.

Lemma elem_of_action_ids message getConversation ourConversationId acts c :
  actions message getConversation ourConversationId = Normal acts ->
  c ∈ conversationId <$> acts
  <-> c ∈ resolvableFromErrors message getConversation
            ∪ resolvableFrom message getConversation "sent_to"
            ∪ resolvableFrom message getConversation "delivered_to"
            ∪ resolvableFrom message getConversation "read_by"
            ∪ {[ourConversationId]}.
Proof.
  intros Hacts. rewrite list_elem_of_fmap, !elem_of_union, elem_of_singleton. split.
  - intros (a & -> & Ha). apply (elem_of_actions _ _ _ _ _ Hacts) in Ha.
    destruct Ha as [[_ ?]|[[_ ?]|[[_ ?]|[[_ ?]| ->]]]]; tauto.
  - intros [[[[Hc|Hc]|Hc]|Hc]| ->].
    + exists {| actionType := ActionFailed; conversationId := c |}.
      split; [done|]. apply (elem_of_actions _ _ _ _ _ Hacts). tauto.
    + exists {| actionType := ActionSent; conversationId := c |}.
      split; [done|]. apply (elem_of_actions _ _ _ _ _ Hacts). tauto.
    + exists {| actionType := GotDeliveryReceipt; conversationId := c |}.
      split; [done|]. apply (elem_of_actions _ _ _ _ _ Hacts). tauto.
    + exists {| actionType := GotReadReceipt; conversationId := c |}.
      split; [done|]. apply (elem_of_actions _ _ _ _ _ Hacts). tauto.
    + exists (selfAction message ourConversationId).
      split; [done|]. apply (elem_of_actions _ _ _ _ _ Hacts). tauto.
Qed.

(** The highest status is pinned down by its two defining properties. *)
Lemma bestStatus_unique c s0 acts t :
  rank s0 <= rank t ->
  (forall a, a ∈ acts -> conversationId a = c ->
             rank (impliedStatus (actionType a)) <= rank t) ->
  (t = s0 \/ exists a, a ∈ acts /\ conversationId a = c
                     /\ impliedStatus (actionType a) = t) ->
  bestStatus c s0 acts = t.
Proof.
  intros Hinit Hupper Hhit. apply rank_inj, Z.le_antisymm.
  - destruct (bestStatus_attained c s0 acts) as [->|(a & Ha & Hc & <-)]; auto.
  - destruct Hhit as [->|(a & Ha & Hc & <-)].
    + apply bestStatus_ge_init.
    + by apply bestStatus_ge.
Qed.

(** Two migrated messages that agree on [sent_at], on the ids each
    source resolves to and on [sent] are given the same map. *)
Lemma migrate_ext message1 message2 getConversation ourConversationId :
  isEmpty (sendStateByConversationId message1) = true -> isOutgoing message1 = true ->
  errorsShapeOk (errors message1) = true ->
  isEmpty (sendStateByConversationId message2) = true -> isOutgoing message2 = true ->
  errorsShapeOk (errors message2) = true ->
  sent_at message1 = sent_at message2 ->
  wasSentToSelf message1 = wasSentToSelf message2 ->
  resolvableFromErrors message1 getConversation
  = resolvableFromErrors message2 getConversation ->
  (forall name, name ∈ ["recipients"; "sent_to"; "delivered_to"; "read_by"] ->
     resolvableFrom message1 getConversation name
     = resolvableFrom message2 getConversation name) ->
  exists result,
    migrateLegacySendAttributes message1 getConversation ourConversationId
    = Normal (Some result)
    /\ migrateLegacySendAttributes message2 getConversation ourConversationId
       = Normal (Some result).
Proof.
  intros He1 Ho1 Hs1 He2 Ho2 Hs2 Hat Hself Herr Hlists.
  destruct (migrate_lookup message1 getConversation ourConversationId He1 Ho1 Hs1)
    as (acts1 & r1 & Ha1 & Hm1 & Hl1).
  destruct (migrate_lookup message2 getConversation ourConversationId He2 Ho2 Hs2)
    as (acts2 & r2 & Ha2 & Hm2 & Hl2).
  assert (Hsame : forall a, a ∈ acts1 <-> a ∈ acts2).
  { intros a. rewrite (elem_of_actions _ _ _ _ _ Ha1), (elem_of_actions _ _ _ _ _ Ha2).
    unfold selfAction. rewrite Herr, Hself.
    rewrite (Hlists "sent_to"), (Hlists "delivered_to"), (Hlists "read_by");
      [done | | |]; in_list. }
  assert (r1 = r2) as <-; [|by exists r1].
  apply map_eq. intros c. rewrite Hl1, Hl2, Hat.
  rewrite (bestStatus_ext c Pending acts1 acts2 Hsame).
  rewrite (Hlists "recipients") by in_list.
  apply decide_ext. rewrite !list_elem_of_fmap. by setoid_rewrite Hsame.
Qed.

(** ** Further facts used below *)

Lemma filter_tagged (t t' : SendActionType) (ids : list string) :
  filter (fun a => actionType a = t)
         (map (fun c => {| actionType := t'; conversationId := c |}) ids)
  = if decide (t' = t)
    then map (fun c => {| actionType := t'; conversationId := c |}) ids
    else [].
Proof.
  induction ids as [|c ids IH]; [by case_decide|].
  cbn [map]. rewrite filter_cons, IH. cbn [actionType].
  by destruct (decide (t' = t)).
Qed.

(** Messages that differ only in legacy values with the same entries
    and the same truthiness of [sent] are migrated alike. *)
Lemma migrate_congr message1 message2 getConversation ourConversationId :
  messageType message1 = messageType message2 ->
  sendStateByConversationId message1 = sendStateByConversationId message2 ->
  sent_at message1 = sent_at message2 ->
  errors message1 = errors message2 ->
  (forall name, name ∈ ["recipients"; "sent_to"; "delivered_to"; "read_by"] ->
     entriesOf (get message1 name) = entriesOf (get message2 name)) ->
  wasSentToSelf message1 = wasSentToSelf message2 ->
  migrateLegacySendAttributes message1 getConversation ourConversationId
  = migrateLegacySendAttributes message2 getConversation ourConversationId.
Proof.
  intros Htype Hstate Hat Herr Hentries Hself.
  unfold migrateLegacySendAttributes, actions, derivedActions, selfAction,
    pendingSendState, isOutgoing.
  rewrite !getConversationIdsFromLegacyAttribute_omap.
  rewrite Htype, Hstate, Hat, Herr, Hself.
  by rewrite !Hentries by in_list.
Qed.

Lemma get_withLegacy message name v name' :
  get (withLegacy message name v) name'
  = if decide (name = name') then v else get message name'.
Proof.
  unfold get, withLegacy. cbn [legacy]. case_decide as Hn.
  - subst. by rewrite lookup_insert_eq.
  - by rewrite lookup_insert_ne.
Qed.

(** Repeating an entry a list already has does not change what the
    list resolves to. *)
Lemma resolvableFrom_duplicate message getConversation name before after identifier name' :
  get message name = JsArray (before ++ after) ->
  identifier ∈ before ++ after ->
  resolvableFrom
    (withLegacy message name (JsArray (before ++ identifier :: after)))
    getConversation name'
  = resolvableFrom message getConversation name'.
Proof.
  intros Hget Hin. unfold resolvableFrom. rewrite get_withLegacy.
  case_decide as Hn; [subst name'|done].
  rewrite Hget. cbn [entriesOf]. apply set_eq. intros c.
  rewrite !elem_of_list_to_set, !list_elem_of_omap.
  split; intros (x & Hx & Hres); exists x; (split; [|done]).
  - apply elem_of_app in Hx as [Hx|Hx]; [apply elem_of_app; by left|].
    apply elem_of_cons in Hx as [->|Hx]; [done|]. apply elem_of_app; by right.
  - apply elem_of_app in Hx as [Hx|Hx]; apply elem_of_app; [by left|].
    right. by right.
Qed.

Lemma idOfIdentifier_Some (getConversation : GetConversationType) v c :
  idOfIdentifier getConversation v = Some c ->
  exists conversation, getConversation v = Some conversation /\ id conversation = c.
Proof.
  destruct v; try done. cbn [idOfIdentifier].
  destruct (getConversation _) as [conversation|]; [|done].
  intros [= <-]. by exists conversation.
Qed.

Lemma idOfError_Some (getConversation : GetConversationType) error c :
  idOfError getConversation error = Some c ->
  exists v conversation, getConversation v = Some conversation /\ id conversation = c.
Proof.
  unfold idOfError.
  destruct (getConversation (fieldOf error "identifier")) as [conversation|] eqn:Hid.
  - intros [= <-]. by exists (fieldOf error "identifier"), conversation.
  - destruct (getConversation (fieldOf error "number")) as [conversation|] eqn:Hnum;
      [|done].
    intros [= <-]. by exists (fieldOf error "number"), conversation.
Qed.

Example scenarioA_result :
  migrateLegacySendAttributes Scenarios.scenarioA Scenarios.directory "ME"
  = Normal (Some (<["A" := Scenarios.st Sent]> (<["B" := Scenarios.st Read]>
                   {["ME" := Scenarios.st Sent]}))).
Proof. vm_compute. reflexivity. Qed.

Example scenarioB_result :
  migrateLegacySendAttributes Scenarios.scenarioB Scenarios.directory "ME"
  = Normal (Some (<["A" := Scenarios.st Sent]> {["ME" := Scenarios.st Failed]})).
Proof. vm_compute. reflexivity. Qed.

Example scenarioC_result :
  migrateLegacySendAttributes Scenarios.scenarioC Scenarios.directory "ME"
  = Normal (Some {["ME" := Scenarios.st Failed]}).
Proof. vm_compute. reflexivity. Qed.

(** [errors: null] is read as no errors; [errors: [null]] raises on
    [error.identifier]. *)
Example errors_null_result :
  migrateLegacySendAttributes (Scenarios.outgoing JsNull []) Scenarios.directory "ME"
  = Normal (Some {["ME" := Scenarios.st Failed]}).
Proof. vm_compute. reflexivity. Qed.

Example errors_null_entry_result :
  migrateLegacySendAttributes (Scenarios.outgoing (JsArray [JsNull]) [])
    Scenarios.directory "ME"
  = Throw.
Proof. vm_compute. reflexivity. Qed.

Example scenarioD_result :
  migrateLegacySendAttributes Scenarios.scenarioD Scenarios.directory "ME"
  = Normal None.
Proof. vm_compute. reflexivity. Qed.

(** * Properties of the migration *)

(** C1.  The no-migration guard: whenever the message already has a
    non-empty normalized send-state map, or is not outgoing, [migrate]
    returns [undefined], whatever the legacy fields and [errors] hold;
    otherwise (the message is outgoing and its normalized state empty) it
    returns a map.  [errors] is taken in a shape of its declared type. *)
Theorem migrate_guard message getConversation ourConversationId :
  (isEmpty (sendStateByConversationId message) = false \/ isOutgoing message = false ->
   migrateLegacySendAttributes message getConversation ourConversationId
   = Normal None)
  /\ (isEmpty (sendStateByConversationId message) = true ->
      isOutgoing message = true ->
      errorsShapeOk (errors message) = true ->
      exists result,
        migrateLegacySendAttributes message getConversation ourConversationId
        = Normal (Some result)).
Proof.
  split.
  - intros Hno. apply migrate_not_needed, andb_false_iff. exact Hno.
  - intros Hempty Hout Hok.
    destruct (migrate_lookup message getConversation ourConversationId
                Hempty Hout Hok) as (_ & result & _ & Hm & _).
    by exists result.
Qed.

Lemma migrate_guard_witness :
  migrateLegacySendAttributes Scenarios.scenarioD Scenarios.directory "ME" = Normal None
  /\ migrateLegacySendAttributes Scenarios.incoming Scenarios.directory "ME" = Normal None
  /\ exists result,
       migrateLegacySendAttributes Scenarios.scenarioA Scenarios.directory "ME"
       = Normal (Some result).
Proof.
  split; [|split].
  - apply (proj1 (migrate_guard Scenarios.scenarioD Scenarios.directory "ME")).
    left. reflexivity.
  - apply (proj1 (migrate_guard Scenarios.incoming Scenarios.directory "ME")).
    right. reflexivity.
  - apply (proj2 (migrate_guard Scenarios.scenarioA Scenarios.directory "ME"));
      reflexivity.
Defined.

(** C5.  Monotonicity of the reducer: for every state [s] and event [e],
    the rank of the status of [sendStateReducer s e] is at least the rank
    of the status of [s]; hence the status recorded under a key never
    drops in rank while the migration folds its events. *)
Theorem sendStateReducer_monotone :
  (forall (s : SendState) (e : SendAction),
     rank (status s) <= rank (status (sendStateReducer s e)))
  /\ (forall pending (st : SendStateByConversationId) acts c s,
        st !! c = Some s ->
        exists s', foldl (applyAction pending) st acts !! c = Some s'
                   /\ rank (status s) <= rank (status s')).
Proof.
  split.
  - intros s e. unfold sendStateReducer.
    destruct (Z.ltb_spec (rank (status s)) (rank (impliedStatus (type e))));
      cbn [status]; lia.
  - intros pending st acts c s Hs. rewrite foldl_applyAction_lookup, Hs.
    eexists. split; [done|]. cbn [status]. apply bestStatus_ge_init.
Qed.

Lemma sendStateReducer_monotone_witness :
  rank Delivered
  <= rank (status (sendStateReducer (Scenarios.st Delivered)
                     {| type := ActionFailed; actionUpdatedAt := Some 5 |}))
  /\ exists s',
       foldl (applyAction (Scenarios.st Pending)) {[ "A" := Scenarios.st Delivered ]}
         [ {| actionType := ActionSent; conversationId := "A" |} ] !! "A" = Some s'
       /\ rank (status (Scenarios.st Delivered)) <= rank (status s').
Proof.
  split.
  - exact (proj1 sendStateReducer_monotone (Scenarios.st Delivered)
             {| type := ActionFailed; actionUpdatedAt := Some 5 |}).
  - apply (proj2 sendStateReducer_monotone). reflexivity.
Defined.

(** C8.  Events from [errors]: for every list of error entries and every
    resolver, the conversation ids taken from the list are, in order,
    those of the entries that resolve, one per such entry, and the
    [Failed] events of the message are exactly these.  Each entry is
    tried by its [identifier] first and by its [number] second; the
    first that resolves wins, and an entry for which neither resolves
    gives nothing. *)
Theorem failed_events_of_errors (getConversation : GetConversationType) items :
  forallb (fun error => negb (isNullish error)) items = true ->
  getConversationIdsFromErrors (JsArray items) getConversation
  = Normal (omap (idOfError getConversation) items)
  /\ (forall message,
        errors message = JsArray items ->
        exists derived,
          derivedActions message getConversation = Normal derived
          /\ filter (fun a => actionType a = ActionFailed) derived
             = map (fun c => {| actionType := ActionFailed; conversationId := c |})
                   (omap (idOfError getConversation) items))
  /\ (forall error,
        isNullish error = false ->
        getConversationIdsFromErrors (JsArray [error]) getConversation
        = Normal
            match getConversation (fieldOf error "identifier") with
            | Some conversation => [id conversation]
            | None =>
                match getConversation (fieldOf error "number") with
                | Some conversation => [id conversation]
                | None => []
                end
            end).
Proof.
  intros Hok. split_and!.
  - by apply (getConversationIdsFromErrors_normal (JsArray items)).
  - intros message Herrors.
    assert (errorsShapeOk (errors message) = true) as Hshape by by rewrite Herrors.
    eexists. split; [by apply derivedActions_normal|].
    rewrite !filter_app, !filter_tagged, Herrors.
    rewrite decide_True, !decide_False by done.
    by rewrite !app_nil_r.
  - intros error Hnn.
    rewrite (getConversationIdsFromErrors_normal (JsArray [error])).
    + cbn [entriesOf]. rewrite omap_cons_case. unfold idOfError.
      destruct (getConversation (fieldOf error "identifier")); [done|].
      by destruct (getConversation (fieldOf error "number")).
    + cbn [errorsShapeOk forallb]. by rewrite Hnn.
Qed.

Lemma failed_events_of_errors_witness :
  getConversationIdsFromErrors
    (JsArray [ JsObject {[ "identifier" := JsString "+B"; "number" := JsString "+A" ]};
               JsObject {[ "number" := JsString "+4A" ]};
               JsObject {[ "identifier" := JsString "nobody" ]} ])
    Scenarios.directory
  = Normal ["B"; "A"].
Proof.
  etrans.
  - apply (proj1 (failed_events_of_errors Scenarios.directory
      [ JsObject {[ "identifier" := JsString "+B"; "number" := JsString "+A" ]};
        JsObject {[ "number" := JsString "+4A" ]};
        JsObject {[ "identifier" := JsString "nobody" ]} ] eq_refl)).
  - vm_compute. reflexivity.
Defined.

(** C6, as the code has it.  [migrate] raises exactly when the message
    is migrated (outgoing, normalized state empty) and [errors] is a
    truthy value that is not an array, or an array holding [undefined]
    or [null]; with [errors] falsy or an array of other entries it never
    raises, whatever [recipients], [sent_to], [delivered_to], [read_by]
    and [sent] hold.  A value of one of these four lists that is not an
    array is read as the empty list and gives rise to no event. *)
Theorem migrate_raises_only_on_errors_shape message getConversation ourConversationId :
  (migrateLegacySendAttributes message getConversation ourConversationId = Throw
   <-> isEmpty (sendStateByConversationId message) = true
       /\ isOutgoing message = true
       /\ errorsShapeOk (errors message) = false)
  /\ (errorsShapeOk (errors message) = true ->
      exists outcome,
        migrateLegacySendAttributes message getConversation ourConversationId
        = Normal outcome)
  /\ (forall name v,
        name ∈ ["recipients"; "sent_to"; "delivered_to"; "read_by"] ->
        (forall items, v <> JsArray items) ->
        getConversationIdsFromLegacyAttribute (withLegacy message name v) name
          getConversation = []
        /\ migrateLegacySendAttributes (withLegacy message name v)
             getConversation ourConversationId
           = migrateLegacySendAttributes (withLegacy message name (JsArray []))
               getConversation ourConversationId).
Proof.
  assert (Hcases :
    forall m,
      (isEmpty (sendStateByConversationId m) && isOutgoing m = false
       /\ migrateLegacySendAttributes m getConversation ourConversationId = Normal None)
      \/ (isEmpty (sendStateByConversationId m) = true /\ isOutgoing m = true
          /\ errorsShapeOk (errors m) = false
          /\ migrateLegacySendAttributes m getConversation ourConversationId = Throw)
      \/ (isEmpty (sendStateByConversationId m) = true /\ isOutgoing m = true
          /\ errorsShapeOk (errors m) = true
          /\ exists result,
               migrateLegacySendAttributes m getConversation ourConversationId
               = Normal (Some result))).
  { intros m.
    destruct (isEmpty (sendStateByConversationId m)) eqn:Hempty;
      [destruct (isOutgoing m) eqn:Hout|].
    - destruct (errorsShapeOk (errors m)) eqn:Hok.
      + right; right. split_and!; try done.
        destruct (migrate_lookup m getConversation ourConversationId
                    Hempty Hout Hok) as (_ & result & _ & Hm & _).
        by exists result.
      + right; left. split_and!; try done. by apply migrate_throws.
    - left. split; [done|]. apply migrate_not_needed. by rewrite Hempty, Hout.
    - left. split; [done|]. apply migrate_not_needed. by rewrite Hempty. }
  split_and!.
  - destruct (Hcases message)
      as [[Hno Hm]|[(He & Ho & Hbad & Hm)|(He & Ho & Hok & result & Hm)]];
      rewrite Hm; split; try done.
    + intros (He & Ho & _). by rewrite He, Ho in Hno.
    + intros (_ & _ & Hbad). congruence.
  - intros Hok.
    destruct (Hcases message)
      as [[Hno Hm]|[(He & Ho & Hbad & Hm)|(He & Ho & _ & result & Hm)]];
      [by eexists | congruence | by eexists].
  - intros name v Hname Hnot. split.
    + rewrite getConversationIdsFromLegacyAttribute_omap, get_withLegacy.
      rewrite decide_True by done. destruct v; try done. by destruct (Hnot items).
    + assert (name <> "sent") as Hsent.
      { intros ->. repeat (apply elem_of_cons in Hname as [?|Hname]; [done|]).
        by apply elem_of_nil in Hname. }
      apply migrate_congr; try done.
      * intros name' _. rewrite !get_withLegacy. case_decide; [|done].
        destruct v; try done. by destruct (Hnot items).
      * unfold wasSentToSelf. rewrite !get_withLegacy.
        by rewrite !decide_False by done.
Qed.

(** A message of the typed shape never raises; a number in the place of
    [sent_to] is read as no list at all. *)
Lemma migrate_raises_only_on_errors_shape_witness :
  (exists outcome,
     migrateLegacySendAttributes Scenarios.scenarioB Scenarios.directory "ME"
     = Normal outcome)
  /\ migrateLegacySendAttributes
       (withLegacy Scenarios.scenarioA "sent_to" (JsNumber 7)) Scenarios.directory "ME"
     = migrateLegacySendAttributes
         (withLegacy Scenarios.scenarioA "sent_to" (JsArray [])) Scenarios.directory "ME".
Proof.
  split.
  - apply (proj1 (proj2 (migrate_raises_only_on_errors_shape
                           Scenarios.scenarioB Scenarios.directory "ME"))).
    reflexivity.
  - apply (proj2 (proj2 (migrate_raises_only_on_errors_shape
                           Scenarios.scenarioA Scenarios.directory "ME"))).
    + in_list.
    + intros items. discriminate.
Defined.

(** C6 as stated fails: a message whose [errors] holds a string, a
    non-array where an array is expected, makes [migrate] raise. *)
Lemma migrate_raises_on_errors_not_an_array :
  migrateLegacySendAttributes Scenarios.errorsNotAnArray Scenarios.directory "ME"
  = Throw.
Proof. vm_compute. reflexivity. Qed.

(** ** Messages that are migrated

    The remaining properties share their setting: an outgoing message
    whose normalized state is empty, so that the migration runs, and
    whose [errors] has a shape its declared type allows, so that reading
    it does not raise. *)

Section MigratedMessage.

Context (message : MessageAttributesType).
Context (getConversation : GetConversationType) (ourConversationId : string).

Hypothesis Hempty : isEmpty (sendStateByConversationId message) = true.
Hypothesis Hout : isOutgoing message = true.
Hypothesis Hok : errorsShapeOk (errors message) = true.

(** C2.  Union of keys: for an outgoing message with empty normalized
    state, the keys of the returned map are exactly the conversation ids
    resolvable from [recipients], [errors], [sent_to], [delivered_to] and
    [read_by], together with [ourConversationId]; in particular an
    identifier that only a later list names, and that resolves, gives a
    key. *)
Theorem migrate_key_set :
  exists result,
    migrateLegacySendAttributes message getConversation ourConversationId
    = Normal (Some result)
    /\ dom result
       = resolvableFrom message getConversation "recipients"
         ∪ resolvableFromErrors message getConversation
         ∪ resolvableFrom message getConversation "sent_to"
         ∪ resolvableFrom message getConversation "delivered_to"
         ∪ resolvableFrom message getConversation "read_by"
         ∪ {[ourConversationId]}
    /\ forall name identifier conversation,
         name ∈ ["sent_to"; "delivered_to"; "read_by"] ->
         JsString identifier ∈ entriesOf (get message name) ->
         getConversation (JsString identifier) = Some conversation ->
         id conversation ∈ dom result.
Proof.
  destruct (migrate_lookup message getConversation ourConversationId
              Hempty Hout Hok) as (acts & result & Hacts & Hm & Hl).
  assert (Hdom : dom result
       = resolvableFrom message getConversation "recipients"
         ∪ resolvableFromErrors message getConversation
         ∪ resolvableFrom message getConversation "sent_to"
         ∪ resolvableFrom message getConversation "delivered_to"
         ∪ resolvableFrom message getConversation "read_by"
         ∪ {[ourConversationId]}).
  { apply set_eq. intros c. rewrite elem_of_dom, Hl.
    pose proof (elem_of_action_ids _ _ _ _ c Hacts) as Hids.
    rewrite !elem_of_union in Hids. rewrite !elem_of_union.
    case_decide as Hc; split.
    - intros _. tauto.
    - intros _. by eexists.
    - by intros ?%is_Some_None.
    - intros Hin. exfalso. tauto. }
  exists result. split_and!; [done | done |].
  intros name identifier conversation Hname Hin Hres. rewrite Hdom.
  assert (id conversation ∈ resolvableFrom message getConversation name) as Hc.
  { apply elem_of_list_to_set, list_elem_of_omap. exists (JsString identifier).
    split; [done|]. cbn [idOfIdentifier]. by rewrite Hres. }
  rewrite !elem_of_union.
  apply elem_of_cons in Hname as [->|Hname]; [tauto|].
  apply elem_of_cons in Hname as [->|Hname]; [tauto|].
  apply list_elem_of_singleton in Hname as ->. tauto.
Qed.

(** C3.  A failure superseded by a later success: for an outgoing
    message with empty normalized state, a conversation that is resolved
    both from [errors] and from [sent_to], that neither [delivered_to] nor
    [read_by] names, and that is not our own, is recorded as [Sent] in the
    returned map, never as [Failed]. *)
Theorem errors_and_sent_to_is_Sent c :
  c ∈ resolvableFromErrors message getConversation ->
  c ∈ resolvableFrom message getConversation "sent_to" ->
  c ∉ resolvableFrom message getConversation "delivered_to" ->
  c ∉ resolvableFrom message getConversation "read_by" ->
  c ≠ ourConversationId ->
  exists result,
    migrateLegacySendAttributes message getConversation ourConversationId
    = Normal (Some result)
    /\ status <$> result !! c = Some Sent.
Proof.
  intros Herr Hsent Hdel Hread Hother.
  destruct (migrate_lookup message getConversation ourConversationId
              Hempty Hout Hok) as (acts & result & Hacts & Hm & Hl).
  exists result. split; [done|].
  assert ({| actionType := ActionSent; conversationId := c |} ∈ acts) as Hin.
  { apply (elem_of_actions _ _ _ _ _ Hacts). cbn [actionType conversationId]. tauto. }
  rewrite Hl, decide_True.
  2:{ right. apply list_elem_of_fmap. eexists. split; [|exact Hin]. done. }
  cbn [fmap option_fmap option_map status]. f_equal.
  apply bestStatus_unique.
  - simpl. lia.
  - intros a Ha Hc. apply (elem_of_actions _ _ _ _ _ Hacts) in Ha.
    destruct Ha as [[-> _]|[[-> _]|[[_ Ha]|[[_ Ha]| ->]]]].
    + simpl. lia.
    + simpl. lia.
    + by rewrite Hc in Ha.
    + by rewrite Hc in Ha.
    + cbn [selfAction conversationId] in Hc. congruence.
  - right. eexists. split; [exact Hin|]. done.
Qed.

(** C4.  The event for our own conversation: for an outgoing message
    with empty normalized state, the event list is the derived events
    followed by exactly one event addressed to [ourConversationId], [Sent]
    when the legacy [sent] is truthy and [Failed] otherwise.  The returned
    map therefore always has an entry for [ourConversationId], of a
    status at least that of this event; and when no legacy list and no
    error has an entry and [sent] is falsy, the returned map is exactly
    [ourConversationId] recorded as [Failed]. *)
Theorem self_event_folded_last :
  exists derived result,
    derivedActions message getConversation = Normal derived
    /\ actions message getConversation ourConversationId
       = Normal (derived
                 ++ [ {| actionType := if Boolean (get message "sent")
                                       then ActionSent else ActionFailed;
                         conversationId := ourConversationId |} ])
    /\ migrateLegacySendAttributes message getConversation ourConversationId
       = Normal (Some result)
    /\ (exists s, result !! ourConversationId = Some s
                  /\ rank (if Boolean (get message "sent") then Sent else Failed)
                     <= rank (status s))
    /\ (entriesOf (errors message) = [] ->
        (forall name, name ∈ ["recipients"; "sent_to"; "delivered_to"; "read_by"] ->
                      entriesOf (get message name) = []) ->
        Boolean (get message "sent") = false ->
        result = {[ ourConversationId :=
                      {| status := Failed; updatedAt := Some (sent_at message) |} ]}).
Proof.
  destruct (migrate_lookup message getConversation ourConversationId
              Hempty Hout Hok) as (acts & result & Hacts & Hm & Hl).
  destruct (actions_derived _ _ _ _ Hacts) as (derived & Hd & ->).
  exists derived, result. split_and!; [done | done | done | |].
  - rewrite Hl, decide_True.
    2:{ right. rewrite fmap_app. apply elem_of_app. right. left. }
    eexists. split; [done|]. cbn [status].
    etrans; [|apply (bestStatus_ge _ _ _ (selfAction message ourConversationId))].
    + unfold selfAction, wasSentToSelf. cbn [actionType].
      by destruct (Boolean _).
    + apply elem_of_app. right. left.
    + done.
  - intros Hnoerr Hnolist Hfalsy.
    assert (derived = []) as ->.
    { rewrite (derivedActions_normal _ _ Hok) in Hd. injection Hd as <-.
      rewrite !getConversationIdsFromLegacyAttribute_omap, Hnoerr.
      rewrite !Hnolist by in_list. done. }
    apply map_eq. intros c. rewrite Hl.
    unfold resolvableFrom. rewrite Hnolist by in_list.
    unfold selfAction, wasSentToSelf. rewrite Hfalsy.
    destruct (decide (c = ourConversationId)) as [->|Hne].
    + rewrite lookup_singleton_eq, decide_True; [|right; left].
      cbn [bestStatus foldl app conversationId actionType].
      by rewrite decide_True.
    + rewrite lookup_singleton_ne by done.
      rewrite decide_False; [done|].
      intros [Hin|Hin]; [by apply elem_of_empty in Hin|].
      apply list_elem_of_singleton in Hin. done.
Qed.

(** C7.  Timestamps: for an outgoing message with empty normalized
    state, every action handed to the reducer, the derived ones and the
    one for our own conversation alike, carries [updatedAt = undefined];
    every recipient seeded from [recipients] starts as [Pending] with
    [updatedAt = sent_at]; and every entry of the returned map has
    [updatedAt] equal to the message's [sent_at]. *)
Theorem migrate_timestamps :
  exists acts result,
    actions message getConversation ourConversationId = Normal acts
    /\ migrateLegacySendAttributes message getConversation ourConversationId
       = Normal (Some result)
    /\ Forall (fun a => actionUpdatedAt (reducerAction a) = None) acts
    /\ map_Forall
         (fun _ s => s = {| status := Pending; updatedAt := Some (sent_at message) |})
         (zipObject
            (getConversationIdsFromLegacyAttribute message "recipients" getConversation)
            (Repeat (pendingSendState message)))
    /\ map_Forall (fun _ s => updatedAt s = Some (sent_at message)) result.
Proof.
  destruct (migrate_lookup message getConversation ourConversationId
              Hempty Hout Hok) as (acts & result & Hacts & Hm & Hl).
  exists acts, result. split_and!; [done | done | | |].
  - by apply Forall_forall.
  - intros c s. rewrite zipObject_Repeat_lookup. case_decide; [|done].
    by intros [= <-].
  - intros c s. rewrite Hl. case_decide; [|done]. by intros [= <-].
Qed.

(** C9.  Duplicates within one legacy list: for an outgoing message with
    empty normalized state, writing once more, at any place of
    [recipients], [sent_to], [delivered_to] or [read_by], an identifier
    the list already holds leaves the returned map as it was; and the
    reducer does nothing when handed the same event a second time. *)
Theorem duplicate_identifier_same_map name before after identifier :
  name ∈ ["recipients"; "sent_to"; "delivered_to"; "read_by"] ->
  get message name = JsArray (before ++ after) ->
  identifier ∈ before ++ after ->
  (exists result,
     migrateLegacySendAttributes
       (withLegacy message name (JsArray (before ++ identifier :: after)))
       getConversation ourConversationId
     = Normal (Some result)
     /\ migrateLegacySendAttributes message getConversation ourConversationId
        = Normal (Some result))
  /\ (forall (s : SendState) (e : SendAction),
        sendStateReducer (sendStateReducer s e) e = sendStateReducer s e).
Proof.
  intros Hname Hget Hin. split.
  - assert (name <> "sent") as Hsent.
    { intros ->. repeat (apply elem_of_cons in Hname as [?|Hname]; [done|]).
      by apply elem_of_nil in Hname. }
    apply migrate_ext; try done.
    + unfold wasSentToSelf. by rewrite get_withLegacy, decide_False.
    + intros name' _. by apply resolvableFrom_duplicate.
  - intros s e. unfold sendStateReducer. cbv zeta.
    destruct (rank (status s) <? rank (impliedStatus (type e))) eqn:Hlt;
      cbn [status]; [|by rewrite Hlt].
    by rewrite Z.ltb_irrefl.
Qed.

(** C10.  Keys are conversation ids: when two distinct identifiers,
    each an entry of one of the legacy lists, resolve to conversations
    with the same id, the returned map holds them as one entry under
    that id, and its status is the highest in rank among all events
    addressed to that id, whichever identifier each came from.  Every
    key of the map is [ourConversationId] or the id of a conversation
    the resolver returned. *)
Theorem identifiers_collapse_by_conversation
    name1 name2 identifier1 identifier2 conversation1 conversation2 :
  identifier1 <> identifier2 ->
  name1 ∈ ["recipients"; "sent_to"; "delivered_to"; "read_by"] ->
  name2 ∈ ["recipients"; "sent_to"; "delivered_to"; "read_by"] ->
  JsString identifier1 ∈ entriesOf (get message name1) ->
  JsString identifier2 ∈ entriesOf (get message name2) ->
  getConversation (JsString identifier1) = Some conversation1 ->
  getConversation (JsString identifier2) = Some conversation2 ->
  id conversation1 = id conversation2 ->
  exists acts result s,
    actions message getConversation ourConversationId = Normal acts
    /\ migrateLegacySendAttributes message getConversation ourConversationId
       = Normal (Some result)
    /\ result !! id conversation1 = Some s
    /\ result !! id conversation2 = Some s
    /\ (forall a, a ∈ acts -> conversationId a = id conversation1 ->
                  rank (impliedStatus (actionType a)) <= rank (status s))
    /\ (status s = Pending
        \/ exists a, a ∈ acts /\ conversationId a = id conversation1
                     /\ impliedStatus (actionType a) = status s)
    /\ (forall k, k ∈ dom result ->
          k = ourConversationId
          \/ exists v conversation,
               getConversation v = Some conversation /\ id conversation = k).
Proof.
  intros _ Hname1 _ Hin1 _ Hres1 _ Hsame.
  destruct (migrate_lookup message getConversation ourConversationId
              Hempty Hout Hok) as (acts & result & Hacts & Hm & Hl).
  assert (id conversation1 ∈ resolvableFrom message getConversation name1) as Hc.
  { apply elem_of_list_to_set, list_elem_of_omap. exists (JsString identifier1).
    split; [done|]. cbn [idOfIdentifier]. by rewrite Hres1. }
  assert (result !! id conversation1
          = Some {| status := bestStatus (id conversation1) Pending acts;
                    updatedAt := Some (sent_at message) |}) as Hentry.
  { rewrite Hl. apply decide_True.
    pose proof (elem_of_action_ids _ _ _ _ (id conversation1) Hacts) as Hids.
    rewrite !elem_of_union in Hids.
    apply elem_of_cons in Hname1 as [->|Hname1]; [by left|]. right. apply Hids.
    apply elem_of_cons in Hname1 as [->|Hname1]; [tauto|].
    apply elem_of_cons in Hname1 as [->|Hname1]; [tauto|].
    apply list_elem_of_singleton in Hname1 as ->. tauto. }
  eexists acts, result, _. split_and!; [done | done | exact Hentry | | | |].
  - by rewrite <- Hsame.
  - intros a Ha Hca. cbn [status]. by apply bestStatus_ge.
  - cbn [status]. apply bestStatus_attained.
  - intros k [s Hk]%elem_of_dom. rewrite Hl in Hk.
    case_decide as Hkey; [clear Hk|done].
    assert (forall name, k ∈ resolvableFrom message getConversation name ->
              exists v conversation,
                getConversation v = Some conversation /\ id conversation = k) as Hlist.
    { intros name (v & _ & Hv)%elem_of_list_to_set%list_elem_of_omap.
      apply idOfIdentifier_Some in Hv as (conversation & ? & ?).
      by exists v, conversation. }
    destruct Hkey as [Hkey|Hkey]; [right; by eapply Hlist|].
    apply (elem_of_action_ids _ _ _ _ _ Hacts) in Hkey.
    rewrite !elem_of_union, elem_of_singleton in Hkey.
    destruct Hkey as [[[[Hkey|Hkey]|Hkey]|Hkey]|Hkey];
      [|right; by eapply Hlist..|by left].
    right. apply elem_of_list_to_set, list_elem_of_omap in Hkey as (e & _ & He).
    by eapply idOfError_Some.
Qed.

End MigratedMessage.

(** ** The properties at the scenarios *)

Lemma migrate_key_set_witness :
  exists result,
    migrateLegacySendAttributes Scenarios.deliveredOnly Scenarios.directory "ME"
    = Normal (Some result)
    /\ "B" ∈ dom result.
Proof.
  destruct (migrate_key_set Scenarios.deliveredOnly Scenarios.directory "ME")
    as (result & Hm & _ & Hlater); [reflexivity | reflexivity | reflexivity |].
  exists result. split; [exact Hm|].
  apply (Hlater "delivered_to" "+B" {| id := "B" |}).
  - in_list.
  - vm_compute. in_list.
  - reflexivity.
Defined.

Lemma errors_and_sent_to_is_Sent_witness :
  exists result,
    migrateLegacySendAttributes Scenarios.scenarioB Scenarios.directory "ME"
    = Normal (Some result)
    /\ status <$> result !! "A" = Some Sent.
Proof.
  apply (errors_and_sent_to_is_Sent Scenarios.scenarioB Scenarios.directory "ME"
           eq_refl eq_refl eq_refl "A");
    by_evaluation.
Defined.

Lemma self_event_folded_last_witness :
  exists result,
    migrateLegacySendAttributes Scenarios.scenarioC Scenarios.directory "ME"
    = Normal (Some result)
    /\ result = {[ "ME" := {| status := Failed; updatedAt := Some 1000 |} ]}.
Proof.
  destruct (self_event_folded_last Scenarios.scenarioC Scenarios.directory "ME")
    as (derived & result & _ & _ & Hm & _ & Honly);
    [reflexivity | reflexivity | reflexivity |].
  exists result. split; [exact Hm|].
  apply Honly.
  - reflexivity.
  - intros name _. reflexivity.
  - reflexivity.
Defined.

Lemma migrate_timestamps_witness :
  exists result,
    migrateLegacySendAttributes Scenarios.scenarioA Scenarios.directory "ME"
    = Normal (Some result)
    /\ map_Forall (fun _ s => updatedAt s = Some 1000) result.
Proof.
  destruct (migrate_timestamps Scenarios.scenarioA Scenarios.directory "ME")
    as (acts & result & _ & Hm & _ & _ & Hat);
    [reflexivity | reflexivity | reflexivity |].
  exists result. split; [exact Hm | exact Hat].
Defined.

Lemma duplicate_identifier_same_map_witness :
  exists result,
    migrateLegacySendAttributes
      (withLegacy Scenarios.scenarioA "recipients"
         (JsArray ([JsString "+A"] ++ JsString "+B" :: [JsString "+B"])))
      Scenarios.directory "ME"
    = Normal (Some result)
    /\ migrateLegacySendAttributes Scenarios.scenarioA Scenarios.directory "ME"
       = Normal (Some result).
Proof.
  apply (proj1 (duplicate_identifier_same_map Scenarios.scenarioA
                  Scenarios.directory "ME" eq_refl eq_refl eq_refl
                  "recipients" [JsString "+A"] [JsString "+B"] (JsString "+B")
                  ltac:(in_list) eq_refl ltac:(in_list))).
Defined.

Lemma identifiers_collapse_by_conversation_witness :
  exists result s,
    migrateLegacySendAttributes Scenarios.twoNames Scenarios.directory "ME"
    = Normal (Some result)
    /\ result !! "A" = Some s
    /\ (status s = Pending
        \/ exists a, impliedStatus (actionType a) = status s).
Proof.
  destruct (identifiers_collapse_by_conversation Scenarios.twoNames
              Scenarios.directory "ME" eq_refl eq_refl eq_refl
              "sent_to" "read_by" "+A" "+4A" {| id := "A" |} {| id := "A" |})
    as (acts & result & s & _ & Hm & Hs & _ & _ & Hhit & _);
    try reflexivity; try discriminate; try in_list; try (vm_compute; in_list).
  exists result, s. split_and!; [exact Hm | exact Hs |].
  destruct Hhit as [?|(a & _ & _ & ?)]; [by left | right; by exists a].
Defined.

(** * Further properties of the code *)

(** ** Helper facts *)

Lemma omap_ext_in {A B} (f g : A -> option B) (l : list A) :
  (forall x, x ∈ l -> f x = g x) -> omap f l = omap g l.
Proof.
  induction l as [|x l IH]; intros Hfg; [done|].
  rewrite !omap_cons_case, (Hfg x) by left.
  rewrite IH; [done|]. intros y Hy. apply Hfg. by right.
Qed.

Lemma length_omap_le {A B} (f : A -> option B) (l : list A) :
  (length (omap f l) <= length l)%nat.
Proof.
  induction l as [|x l IH]; [done|].
  rewrite omap_cons_case. destruct (f x); simpl; lia.
Qed.

Lemma idOfIdentifier_stringsOf (getConversation : GetConversationType) items :
  omap (idOfIdentifier getConversation) items
  = omap (fun s => id <$> getConversation (JsString s)) (stringsOf items).
Proof.
  unfold stringsOf. induction items as [|v items IH]; [done|].
  rewrite !omap_cons_case. destruct v; try done.
  rewrite omap_cons_case. cbn [idOfIdentifier]. by rewrite IH.
Qed.


Lemma getConversationIdsFromLegacyAttribute_ext message name
    (gc1 gc2 : GetConversationType) :
  (forall s, gc1 (JsString s) = gc2 (JsString s)) ->
  getConversationIdsFromLegacyAttribute message name gc1
  = getConversationIdsFromLegacyAttribute message name gc2.
Proof.
  intros Hagree. rewrite !getConversationIdsFromLegacyAttribute_omap.
  apply omap_ext_in. intros v _. destruct v; try done.
  cbn [idOfIdentifier]. by rewrite Hagree.
Qed.

Lemma bestStatus_none c s0 acts :
  (forall a, a ∈ acts -> conversationId a <> c) -> bestStatus c s0 acts = s0.
Proof.
  intros Hnone. apply bestStatus_unique; [lia | | by left].
  intros a Ha Hc. by destruct (Hnone a Ha).
Qed.

Lemma bestStatus_snoc_other c s0 acts a :
  conversationId a <> c -> bestStatus c s0 (acts ++ [a]) = bestStatus c s0 acts.
Proof.
  intros Hne. unfold bestStatus. rewrite foldl_app. cbn [foldl].
  by rewrite decide_False.
Qed.

Lemma derivedActions_withLegacy_other message getConversation name v :
  name ∉ ["sent_to"; "delivered_to"; "read_by"] ->
  derivedActions (withLegacy message name v) getConversation
  = derivedActions message getConversation.
Proof.
  intros Hname. unfold derivedActions.
  rewrite !getConversationIdsFromLegacyAttribute_omap, !get_withLegacy.
  rewrite !decide_False; [done | | |]; intros ->; apply Hname; in_list.
Qed.

(** ** [getConversationIdsFromLegacyAttribute] *)

(** X1.  The ids of a legacy list are taken entry by entry, in order:
    the ids of an array that is two arrays put end to end are the ids of
    the first followed by the ids of the second. *)
Theorem legacy_ids_of_concatenation message name getConversation items1 items2 :
  getConversationIdsFromLegacyAttribute
    (withLegacy message name (JsArray (items1 ++ items2))) name getConversation
  = getConversationIdsFromLegacyAttribute
      (withLegacy message name (JsArray items1)) name getConversation
    ++ getConversationIdsFromLegacyAttribute
         (withLegacy message name (JsArray items2)) name getConversation.
Proof.
  rewrite !getConversationIdsFromLegacyAttribute_omap, !get_withLegacy.
  rewrite !decide_True by done. cbn [entriesOf]. apply omap_app.
Qed.

(** X2.  The resolver is asked about string entries only: two resolvers
    that agree on every string give the same ids, whatever they answer
    on other values. *)
Theorem legacy_ids_ask_strings_only message name
    (getConversation1 getConversation2 : GetConversationType) :
  (forall s, getConversation1 (JsString s) = getConversation2 (JsString s)) ->
  getConversationIdsFromLegacyAttribute message name getConversation1
  = getConversationIdsFromLegacyAttribute message name getConversation2.
Proof. apply getConversationIdsFromLegacyAttribute_ext. Qed.

Lemma legacy_ids_ask_strings_only_witness :
  getConversationIdsFromLegacyAttribute Cases.mixedEntries "sent_to" Scenarios.directory
  = getConversationIdsFromLegacyAttribute Cases.mixedEntries "sent_to"
      Cases.eagerDirectory.
Proof.
  apply (legacy_ids_ask_strings_only Cases.mixedEntries "sent_to"
           Scenarios.directory Cases.eagerDirectory).
  intros s. reflexivity.
Defined.

(** X3.  Entries that are not strings are passed over: the ids are those
    the resolver gives for the string entries, in their order, so there
    are at most as many ids as string entries. *)
Theorem legacy_ids_from_string_entries message name (getConversation : GetConversationType) :
  getConversationIdsFromLegacyAttribute message name getConversation
  = omap (fun s => id <$> getConversation (JsString s))
         (stringsOf (entriesOf (get message name)))
  /\ (length (getConversationIdsFromLegacyAttribute message name getConversation)
      <= length (stringsOf (entriesOf (get message name))))%nat.
Proof.
  rewrite getConversationIdsFromLegacyAttribute_omap, idOfIdentifier_stringsOf.
  split; [done | apply length_omap_le].
Qed.

(** ** [getConversationIdsFromErrors] *)

(** X4.  Whether reading [errors] raises is a matter of its shape alone,
    never of the resolver: it raises exactly when [errors] is a truthy
    value that is not an array, or an array with an [undefined] or
    [null] entry; any falsy [errors] gives no ids. *)
Theorem errors_ids_raise_by_shape errors (getConversation : GetConversationType) :
  (getConversationIdsFromErrors errors getConversation = Throw
   <-> errorsShapeOk errors = false)
  /\ (Boolean errors = false ->
      getConversationIdsFromErrors errors getConversation = Normal []).
Proof.
  split; [split|].
  - intros Hthrow. destruct (errorsShapeOk errors) eqn:Hshape; [|done].
    by rewrite getConversationIdsFromErrors_normal in Hthrow.
  - apply getConversationIdsFromErrors_throw.
  - intros Hfalsy. unfold getConversationIdsFromErrors. by rewrite Hfalsy.
Qed.

Lemma errors_ids_raise_by_shape_witness :
  getConversationIdsFromErrors (JsObject ∅) Scenarios.directory = Throw
  /\ getConversationIdsFromErrors (JsNumber 0) Scenarios.directory = Normal [].
Proof.
  split.
  - apply (proj1 (errors_ids_raise_by_shape (JsObject ∅) Scenarios.directory)).
    reflexivity.
  - apply (proj2 (errors_ids_raise_by_shape (JsNumber 0) Scenarios.directory)).
    reflexivity.
Defined.

(** X5.  Errors are read entry by entry, in order: the ids of an array
    that is two arrays put end to end are the ids of the first followed
    by the ids of the second, and the whole raises as soon as either
    part does. *)
Theorem errors_ids_of_concatenation (getConversation : GetConversationType)
    items1 items2 :
  getConversationIdsFromErrors (JsArray (items1 ++ items2)) getConversation
  = try ids1 <- getConversationIdsFromErrors (JsArray items1) getConversation;
    try ids2 <- getConversationIdsFromErrors (JsArray items2) getConversation;
    Normal (ids1 ++ ids2).
Proof.
  destruct (errorsShapeOk (JsArray items1)) eqn:Hshape1;
    [destruct (errorsShapeOk (JsArray items2)) eqn:Hshape2|].
  - rewrite (getConversationIdsFromErrors_normal (JsArray items1)) by done.
    rewrite (getConversationIdsFromErrors_normal (JsArray items2)) by done.
    rewrite getConversationIdsFromErrors_normal.
    + cbn [cbind entriesOf]. by rewrite omap_app.
    + cbn [errorsShapeOk] in *. rewrite forallb_app. by rewrite Hshape1, Hshape2.
  - rewrite (getConversationIdsFromErrors_normal (JsArray items1)) by done.
    rewrite (getConversationIdsFromErrors_throw (JsArray items2)) by done.
    rewrite getConversationIdsFromErrors_throw; [done|].
    cbn [errorsShapeOk] in *. rewrite forallb_app, Hshape2. apply andb_false_r.
  - rewrite (getConversationIdsFromErrors_throw (JsArray items1)) by done.
    rewrite getConversationIdsFromErrors_throw; [done|].
    cbn [errorsShapeOk] in *. rewrite forallb_app. by rewrite Hshape1.
Qed.

(** X6.  An error entry gives at most one id, even when both its
    [identifier] and its [number] resolve: whenever reading [errors]
    returns, there are at most as many ids as entries. *)
Theorem errors_ids_at_most_one_each errors (getConversation : GetConversationType) ids :
  getConversationIdsFromErrors errors getConversation = Normal ids ->
  (length ids <= length (entriesOf errors))%nat.
Proof.
  intros Hids. destruct (errorsShapeOk errors) eqn:Hshape.
  - rewrite getConversationIdsFromErrors_normal in Hids by done.
    injection Hids as <-. apply length_omap_le.
  - by rewrite getConversationIdsFromErrors_throw in Hids.
Qed.

Lemma errors_ids_at_most_one_each_witness :
  (length ["B"] <= length [JsObject {[ "identifier" := JsString "+B";
                                       "number" := JsString "+A" ]}])%nat.
Proof.
  apply (errors_ids_at_most_one_each
           (JsArray [JsObject {[ "identifier" := JsString "+B";
                                 "number" := JsString "+A" ]}])
           Scenarios.directory ["B"]).
  vm_compute. reflexivity.
Defined.

(** ** The loop over the events *)

(** X7.  The loop never removes an entry and never touches a key no
    event names: after it, the keys are those it started with together
    with the conversation ids of the events, and the state under every
    other key is the one it started with. *)
Theorem loop_keeps_other_entries pending (st : SendStateByConversationId) acts :
  dom (foldl (applyAction pending) st acts)
  = dom st ∪ list_to_set (conversationId <$> acts)
  /\ (forall c, c ∉ conversationId <$> acts ->
        foldl (applyAction pending) st acts !! c = st !! c).
Proof.
  split.
  - apply set_eq. intros c.
    rewrite elem_of_union, !elem_of_dom, elem_of_list_to_set, foldl_applyAction_lookup.
    destruct (st !! c) as [s|] eqn:Hs.
    + split; [intros _; by left | intros _; by eexists].
    + case_decide as Hin; split.
      * intros _. by right.
      * intros _. by eexists.
      * by intros ?%is_Some_None.
      * intros [?%is_Some_None|?]; done.
  - intros c Hnot. rewrite foldl_applyAction_lookup.
    destruct (st !! c) as [s|]; [|by rewrite decide_False].
    rewrite bestStatus_none; [by destruct s|].
    intros a Ha Hc. apply Hnot, list_elem_of_fmap. by exists a.
Qed.

Lemma loop_keeps_other_entries_witness :
  foldl (applyAction (Scenarios.st Pending)) {[ "A" := Scenarios.st Delivered ]}
    [ {| actionType := GotReadReceipt; conversationId := "B" |} ] !! "A"
  = Some (Scenarios.st Delivered).
Proof.
  etrans.
  - apply (proj2 (loop_keeps_other_entries (Scenarios.st Pending)
                    {[ "A" := Scenarios.st Delivered ]}
                    [ {| actionType := GotReadReceipt; conversationId := "B" |} ])).
    by_evaluation.
  - reflexivity.
Defined.

(** ** The migration as a whole *)





(** X10.  A recipient that [recipients] resolves and that no event is
    addressed to (it is resolved from no other source and is not our own
    conversation) is returned exactly as seeded: [Pending], stamped with
    the message's [sent_at]. *)
Theorem recipient_without_events_is_pending message getConversation ourConversationId c :
  isEmpty (sendStateByConversationId message) = true ->
  isOutgoing message = true ->
  errorsShapeOk (errors message) = true ->
  c ∈ resolvableFrom message getConversation "recipients" ->
  c ∉ resolvableFromErrors message getConversation ->
  c ∉ resolvableFrom message getConversation "sent_to" ->
  c ∉ resolvableFrom message getConversation "delivered_to" ->
  c ∉ resolvableFrom message getConversation "read_by" ->
  c <> ourConversationId ->
  exists result,
    migrateLegacySendAttributes message getConversation ourConversationId
    = Normal (Some result)
    /\ result !! c = Some {| status := Pending; updatedAt := Some (sent_at message) |}.
Proof.
  intros Hempty Hout Hok Hrec Herr Hsent Hdel Hread Hother.
  destruct (migrate_lookup message getConversation ourConversationId
              Hempty Hout Hok) as (acts & result & Hacts & Hm & Hl).
  exists result. split; [done|].
  rewrite Hl, decide_True by by left.
  rewrite bestStatus_none; [done|].
  intros a Ha Hc. apply (elem_of_actions _ _ _ _ _ Hacts) in Ha.
  rewrite <- Hc in *.
  destruct Ha as [[_ ?]|[[_ ?]|[[_ ?]|[[_ ?]| ->]]]]; done.
Qed.

Lemma recipient_without_events_is_pending_witness :
  exists result,
    migrateLegacySendAttributes Cases.quietRecipient Scenarios.directory "ME"
    = Normal (Some result)
    /\ result !! "A" = Some {| status := Pending; updatedAt := Some 1000 |}.
Proof.
  apply (recipient_without_events_is_pending Cases.quietRecipient
           Scenarios.directory "ME" "A");
    first [reflexivity | by_evaluation].
Defined.

(** X11.  A message is migrated once: the returned map is never empty,
    so once the caller has stored it on the message, migrating that
    message again returns [undefined]. *)
Theorem migrate_only_once message getConversation ourConversationId result :
  migrateLegacySendAttributes message getConversation ourConversationId
  = Normal (Some result) ->
  result <> ∅
  /\ migrateLegacySendAttributes (withSendState message result)
       getConversation ourConversationId
     = Normal None.
Proof.
  intros Hm.
  assert (result <> ∅) as Hne.
  { unfold migrateLegacySendAttributes in Hm.
    destruct (isEmpty _ && isOutgoing message); cbn [negb] in Hm; [|done].
    destruct (actions message getConversation ourConversationId)
      as [acts|] eqn:Hacts; cbn [cbind] in Hm; [|done].
    injection Hm as <-.
    destruct (actions_derived _ _ _ _ Hacts) as (derived & _ & ->).
    intros Hempty.
    apply (f_equal (fun m => m !! ourConversationId)) in Hempty.
    rewrite foldl_app, lookup_empty in Hempty. cbn [foldl] in Hempty.
    rewrite applyAction_lookup in Hempty.
    by rewrite decide_True in Hempty. }
  split; [done|].
  apply migrate_not_needed. cbn [withSendState sendStateByConversationId isEmpty].
  by rewrite bool_decide_eq_false_2.
Qed.

Lemma migrate_only_once_witness :
  migrateLegacySendAttributes
    (withSendState Scenarios.scenarioC {["ME" := Scenarios.st Failed]})
    Scenarios.directory "ME"
  = Normal None.
Proof.
  apply (migrate_only_once Scenarios.scenarioC Scenarios.directory "ME"
           {["ME" := Scenarios.st Failed]}).
  vm_compute. reflexivity.
Defined.

(** X12.  The legacy [sent] attribute bears on our own entry alone:
    whatever it is set to, a migrated message is given the same keys and
    the same state under every key other than [ourConversationId]. *)
Theorem sent_bears_on_own_entry_only message getConversation ourConversationId v :
  isEmpty (sendStateByConversationId message) = true ->
  isOutgoing message = true ->
  errorsShapeOk (errors message) = true ->
  exists result result',
    migrateLegacySendAttributes message getConversation ourConversationId
    = Normal (Some result)
    /\ migrateLegacySendAttributes (withLegacy message "sent" v)
         getConversation ourConversationId
       = Normal (Some result')
    /\ dom result' = dom result
    /\ forall c, c <> ourConversationId -> result' !! c = result !! c.
Proof.
  intros Hempty Hout Hok.
  destruct (migrate_lookup message getConversation ourConversationId
              Hempty Hout Hok) as (acts & result & Hacts & Hm & Hl).
  destruct (migrate_lookup (withLegacy message "sent" v) getConversation
              ourConversationId Hempty Hout Hok)
    as (acts' & result' & Hacts' & Hm' & Hl').
  destruct (actions_derived _ _ _ _ Hacts) as (derived & Hd & ->).
  destruct (actions_derived _ _ _ _ Hacts') as (derived' & Hd' & ->).
  rewrite derivedActions_withLegacy_other, Hd in Hd'.
  2:{ intros Hin. repeat (apply elem_of_cons in Hin as [?|Hin]; [done|]).
      by apply elem_of_nil in Hin. }
  injection Hd' as <-.
  assert (Hrec : resolvableFrom (withLegacy message "sent" v) getConversation "recipients"
                 = resolvableFrom message getConversation "recipients").
  { unfold resolvableFrom. by rewrite get_withLegacy, decide_False. }
  assert (Hids : forall m c,
            c ∈ conversationId <$> derived ++ [selfAction m ourConversationId]
            <-> c ∈ conversationId <$> derived \/ c = ourConversationId).
  { intros m c. rewrite fmap_app, elem_of_app. cbn [fmap list_fmap selfAction conversationId].
    by rewrite list_elem_of_singleton. }
  exists result, result'. split_and!; [done | done | |].
  - apply set_eq. intros c. rewrite !elem_of_dom, Hl, Hl', Hrec.
    assert (Hcase : c ∈ resolvableFrom message getConversation "recipients"
                    \/ c ∈ conversationId <$> derived
                         ++ [selfAction (withLegacy message "sent" v) ourConversationId]
                    <-> c ∈ resolvableFrom message getConversation "recipients"
                        \/ c ∈ conversationId <$> derived
                             ++ [selfAction message ourConversationId]).
    { by rewrite !Hids. }
    do 2 case_decide; split; try done; try tauto; by intros ?%is_Some_None.
  - intros c Hother. rewrite Hl, Hl', Hrec.
    rewrite !bestStatus_snoc_other by done.
    apply decide_ext. rewrite !Hids. done.
Qed.

Lemma sent_bears_on_own_entry_only_witness :
  exists result result',
    migrateLegacySendAttributes Scenarios.scenarioB Scenarios.directory "ME"
    = Normal (Some result)
    /\ migrateLegacySendAttributes
         (withLegacy Scenarios.scenarioB "sent" (JsString "yes"))
         Scenarios.directory "ME"
       = Normal (Some result')
    /\ result' !! "A" = result !! "A".
Proof.
  destruct (sent_bears_on_own_entry_only Scenarios.scenarioB Scenarios.directory
              "ME" (JsString "yes") eq_refl eq_refl eq_refl)
    as (result & result' & Hm & Hm' & _ & Hsame).
  exists result, result'. split_and!; [exact Hm | exact Hm' |].
  apply Hsame. by_evaluation.
Defined.
